(** * MQ7 gas sensor: the ADC-to-gas-unit mapping of [firmware/mq7_module.h]

    The header holds four [static const float] calibration constants and one
    function, [mq7_map_adc_to_gas], a clamped linear interpolation written in
    single-precision arithmetic.

    The embedding is bit-exact.  A C [float] is an IEEE 754 binary32 number;
    it is modelled by the Standard Library's [spec_float] with a 24-bit
    significand and exponent bound 128, and every arithmetic operation of the
    source is the corresponding correctly rounded (to nearest, ties to even)
    operation of [SpecFloat].  Each operation is rounded on its own, to
    [float], as the C abstract machine evaluates the source when
    [FLT_EVAL_METHOD] is 0 and no multiply-add contraction takes place.

    The argument [int adc] is a mathematical integer [Z].  The function only
    converts it to [float]; the statements below are proved for every [Z], so
    they hold for every value of a C [int], whatever its width. *)

From Stdlib Require Import ZArith QArith Qabs Bool List Lia.
From Stdlib Require Import Floats.SpecFloat.

Local Open Scope Z_scope.

(* ================================================================== *)
(** ** IEEE 754 binary32 *)

Module Binary32.

(** Significand width (with the implicit bit) and exponent bound. *)
Definition prec : Z := 24.
Definition emax : Z := 128.

Definition float32 : Type := spec_float.

(** [(float)n] for an integer [n]: the nearest binary32 number. *)
Definition of_int (n : Z) : float32 := binary_normalize prec emax n 0 false.

Definition add (x y : float32) : float32 := SFadd prec emax x y.
Definition sub (x y : float32) : float32 := SFsub prec emax x y.
Definition mul (x y : float32) : float32 := SFmul prec emax x y.
Definition div (x y : float32) : float32 := SFdiv prec emax x y.

(** The C comparisons [x < y], [x <= y], [x == y]; all three are false as
    soon as an operand is a NaN. *)
Definition ltb (x y : float32) : bool := SFltb x y.
Definition leb (x y : float32) : bool := SFleb x y.
Definition eqb (x y : float32) : bool := SFeqb x y.

(** The literals [0.0f] and [1.0f]. *)
Definition zero : float32 := S754_zero false.
Definition one : float32 := Eval vm_compute in of_int 1.

(** Neither an infinity nor a NaN. *)
Definition is_finite (x : float32) : bool :=
  match x with
  | S754_zero _ | S754_finite _ _ _ => true
  | S754_infinity _ | S754_nan => false
  end.

Definition is_nan (x : float32) : bool :=
  match x with
  | S754_nan => true
  | _ => false
  end.

(** The rational number a finite float stands for. *)
Definition to_Q (x : float32) : option Q :=
  match x with
  | S754_zero _ => Some 0%Q
  | S754_finite s m e =>
      let a := if s then Z.neg m else Z.pos m in
      Some (if 0 <=? e then inject_Z (a * 2 ^ e) else (a # Pos.shiftl 1 (Z.to_N (- e))))
  | S754_infinity _ | S754_nan => None
  end.

End Binary32.

Import Binary32.

Declare Scope f32_scope.
Delimit Scope f32_scope with f32.
Infix "+" := add : f32_scope.
Infix "-" := sub : f32_scope.
Infix "*" := mul : f32_scope.
Infix "/" := div : f32_scope.
Infix "<?" := ltb : f32_scope.
Infix "<=?" := leb : f32_scope.
Infix "=?" := eqb : f32_scope.

(* ================================================================== *)
(** ** The program: [mq7_module.h] *)

(** Lines 11-14: the calibration constants.  Each literal is an integer that
    binary32 represents exactly. *)
Definition MQ7_ADC_MIN_F : float32 := zero.
Definition MQ7_ADC_MAX_F : float32 := Eval vm_compute in of_int 4095.
Definition GAS_UNIT_MIN : float32 := Eval vm_compute in of_int 150.
Definition GAS_UNIT_MAX : float32 := Eval vm_compute in of_int 700.

(** Lines 16-23. *)
Definition mq7_map_adc_to_gas (adc : Z) : float32 :=
  let v := of_int adc in
  let t := ((v - MQ7_ADC_MIN_F) / (MQ7_ADC_MAX_F - MQ7_ADC_MIN_F))%f32 in
  let t := if (t <? zero)%f32 then zero else t in
  let t := if (one <? t)%f32 then one else t in
  let gas_val := (GAS_UNIT_MIN + t * (GAS_UNIT_MAX - GAS_UNIT_MIN))%f32 in
  gas_val.

(** The value of [t] after line 18, before the two clamping statements. *)
Definition mq7_ratio (adc : Z) : float32 :=
  let v := of_int adc in
  ((v - MQ7_ADC_MIN_F) / (MQ7_ADC_MAX_F - MQ7_ADC_MIN_F))%f32.

(** Lines 19-22 as a function of that value. *)
Definition mq7_scale (t : float32) : float32 :=
  let t := if (t <? zero)%f32 then zero else t in
  let t := if (one <? t)%f32 then one else t in
  (GAS_UNIT_MIN + t * (GAS_UNIT_MAX - GAS_UNIT_MIN))%f32.

(** The divisor of line 18. *)
Definition mq7_divisor : float32 := (MQ7_ADC_MAX_F - MQ7_ADC_MIN_F)%f32.

(* ================================================================== *)
(** ** The specification's reading *)

(** [clamp(x, lo, hi)]: [lo] below [lo], [hi] above [hi], [x] in between. *)
Definition clamp (x lo hi : float32) : float32 :=
  if (x <? lo)%f32 then lo else if (hi <? x)%f32 then hi else x.

(** The contract of the specification, section 4.1, step by step, with its
    constants [ADC_MIN], [ADC_MAX], [UNIT_MIN], [UNIT_MAX] and in the
    arithmetic of the result type. *)
Module Spec.
Definition ADC_MIN : float32 := of_int 0.
Definition ADC_MAX : float32 := of_int 4095.
Definition UNIT_MIN : float32 := of_int 150.
Definition UNIT_MAX : float32 := of_int 700.

Definition map_adc_to_gas (adc : Z) : float32 :=
  let t := ((of_int adc - ADC_MIN) / (ADC_MAX - ADC_MIN))%f32 in
  let t := clamp t (of_int 0) (of_int 1) in
  (UNIT_MIN + t * (UNIT_MAX - UNIT_MIN))%f32.

(** The same contract over the rationals, without any rounding. *)
Definition clampQ (x lo hi : Q) : Q :=
  if Qlt_le_dec x lo then lo else if Qlt_le_dec hi x then hi else x.

Definition exact_map_adc_to_gas (adc : Z) : Q :=
  let t := ((inject_Z adc - 0) / (4095 - 0))%Q in
  let t := clampQ t 0 1 in
  (150 + t * (700 - 150))%Q.
End Spec.

(** The interpolation without the clamping statements. *)
Definition mq7_affine (adc : Z) : float32 :=
  (GAS_UNIT_MIN + (of_int adc / MQ7_ADC_MAX_F) * (GAS_UNIT_MAX - GAS_UNIT_MIN))%f32.

(* ================================================================== *)
(** ** Predicates on floats and the exhaustive check of the ADC range *)

(** [x] carries the sign [s] and is not a NaN. *)
Definition sign_is (s : bool) (x : float32) : bool :=
  match x with
  | S754_zero s' | S754_infinity s' | S754_finite s' _ _ => Bool.eqb s s'
  | S754_nan => false
  end.

(** [x] is finite and strictly positive. *)
Definition pos_finite (x : float32) : bool :=
  match x with
  | S754_finite false _ _ => true
  | _ => false
  end.

(** Same representation: same class, sign, significand and exponent. *)
Definition identical (x y : float32) : bool :=
  match x, y with
  | S754_zero a, S754_zero b => Bool.eqb a b
  | S754_infinity a, S754_infinity b => Bool.eqb a b
  | S754_nan, S754_nan => true
  | S754_finite a m e, S754_finite b n f => Bool.eqb a b && Pos.eqb m n && Z.eqb e f
  | _, _ => false
  end.

(** [GAS_UNIT_MIN <= x && x <= GAS_UNIT_MAX], as C evaluates it. *)
Definition in_unit_range (x : float32) : bool :=
  (GAS_UNIT_MIN <=? x)%f32 && (x <=? GAS_UNIT_MAX)%f32.

(** The same bounds on the rational value of [x]. *)
Definition in_unit_rangeQ (x : float32) : bool :=
  match to_Q x with
  | Some q => Qle_bool 150 q && Qle_bool q 700
  | None => false
  end.

(** [x] is finite and [|x - c| <= eps]. *)
Definition within (x : float32) (c eps : Q) : bool :=
  match to_Q x with
  | Some q => Qle_bool (Qabs (q - c)) eps
  | None => false
  end.

(** The largest sample of the 12-bit converter. *)
Definition ADC_FULL_SCALE : Z := 4095.

(** A check of [P] at every [z] with [0 <= z < n]. *)
Fixpoint all_below (n : nat) (P : Z -> bool) : bool :=
  match n with
  | O => true
  | S k => P (Z.of_nat k) && all_below k P
  end.

(** What is checked at each of the 4096 samples [0 .. 4095]: the result is in
    range, finite and positive; the ratio [t] of line 18 is in [[0, 1]] and
    neither clamping statement fires; the result is the unclamped
    interpolation; the next sample maps strictly higher; and the result is
    within [2^-14] of the exact rational interpolation. *)
Definition in_range_check (z : Z) : bool :=
  let t := mq7_ratio z in
  let r := mq7_map_adc_to_gas z in
  in_unit_range r && in_unit_rangeQ r && pos_finite r
  && (zero <=? t)%f32 && (t <=? one)%f32
  && negb (t <? zero)%f32 && negb (one <? t)%f32
  && identical r (mq7_affine z)
  && ((z =? ADC_FULL_SCALE) || (r <? mq7_map_adc_to_gas (z + 1))%f32)
  && within r (Spec.exact_map_adc_to_gas z) (1 # 16384).

(** [lo <= y - x <= hi] on the rational values of two finite floats. *)
Definition step_within (x y : float32) (lo hi : Q) : bool :=
  match to_Q x, to_Q y with
  | Some p, Some q => Qle_bool lo (q - p) && Qle_bool (q - p) hi
  | _, _ => false
  end.

(** The rise of the result from sample [z] to sample [z + 1] is checked
    against [275/2048] and [1101/8192], which enclose [550/4095]. *)
Definition step_check (z : Z) : bool :=
  step_within (mq7_map_adc_to_gas z) (mq7_map_adc_to_gas (z + 1))
              (275 # 2048) (1101 # 8192).

(* ================================================================== *)
(** ** Bit lengths and right shifts *)

Section Digits.

Lemma digits2_pos_bounds (p : positive) :
  2 ^ (Z.pos (digits2_pos p) - 1) <= Z.pos p < 2 ^ Z.pos (digits2_pos p).
Proof.
  induction p as [p IH | p IH |]; simpl digits2_pos.
  - rewrite Pos2Z.inj_succ, Z.pow_succ_r by lia.
    replace (Z.succ (Z.pos (digits2_pos p)) - 1)
      with (Z.succ (Z.pos (digits2_pos p) - 1)) by lia.
    rewrite Z.pow_succ_r by lia. lia.
  - rewrite Pos2Z.inj_succ, Z.pow_succ_r by lia.
    replace (Z.succ (Z.pos (digits2_pos p)) - 1)
      with (Z.succ (Z.pos (digits2_pos p) - 1)) by lia.
    rewrite Z.pow_succ_r by lia. lia.
  - simpl. lia.
Qed.

Lemma Zdigits2_bounds (m : Z) :
  0 < m -> 2 ^ (Zdigits2 m - 1) <= m < 2 ^ Zdigits2 m.
Proof.
  destruct m as [|p|p]; try lia. intros _. apply digits2_pos_bounds.
Qed.

Lemma Zdigits2_pos (m : Z) : 0 < m -> 0 < Zdigits2 m.
Proof. destruct m; simpl; lia. Qed.

(** The bit length is the only [d] with [2^(d-1) <= m < 2^d]. *)
Lemma Zdigits2_unique (m d : Z) :
  2 ^ (d - 1) <= m < 2 ^ d -> 0 < m -> Zdigits2 m = d.
Proof.
  intros [Hlo Hhi] Hm.
  pose proof (Zdigits2_bounds m Hm) as [Dlo Dhi].
  pose proof (Zdigits2_pos m Hm) as Dpos.
  assert (0 < d).
  { destruct (Z_lt_le_dec 0 d) as [|Hd]; [assumption|].
    assert (Hd' : d = 0 \/ d < 0) by lia. destruct Hd' as [-> | Hd'].
    - simpl in Hhi. lia.
    - rewrite Z.pow_neg_r in Hhi by lia. lia. }
  assert (Zdigits2 m - 1 < d) by (apply (Z.pow_lt_mono_r_iff 2); lia).
  assert (d - 1 < Zdigits2 m) by (apply (Z.pow_lt_mono_r_iff 2); lia).
  lia.
Qed.

Lemma Zdigits2_ge (m d : Z) : 0 <= d -> 2 ^ d <= m -> d < Zdigits2 m.
Proof.
  intros Hd Hm.
  assert (H : 0 < m) by (pose proof (Z.pow_pos_nonneg 2 d); lia).
  pose proof (Zdigits2_bounds m H) as [_ Dhi].
  pose proof (Zdigits2_pos m H).
  apply (Z.pow_lt_mono_r_iff 2); lia.
Qed.

Lemma pow2_xO (p : positive) : 2 ^ Z.pos p~0 = 2 ^ Z.pos p * 2 ^ Z.pos p.
Proof. rewrite <- Z.pow_add_r by lia. f_equal. lia. Qed.

Lemma pow2_xI (p : positive) : 2 ^ Z.pos p~1 = 2 * (2 ^ Z.pos p * 2 ^ Z.pos p).
Proof. rewrite <- Z.pow_add_r, <- Z.pow_succ_r by lia. f_equal. lia. Qed.

(** [d] doublings of a significand. *)
Lemma iter_xO_pow2 (p d : positive) :
  Z.pos (Pos.iter xO p d) = Z.pos p * 2 ^ Z.pos d.
Proof.
  induction d as [|d IH] using Pos.peano_ind.
  - simpl. lia.
  - rewrite Pos.iter_succ, Pos2Z.inj_xO, IH, Pos2Z.inj_succ, Z.pow_succ_r by lia.
    lia.
Qed.

End Digits.

Section Shift.

(** One step of the shift register halves a non-negative significand. *)
Lemma shr_1_m (mrs : shr_record) :
  0 <= shr_m mrs -> shr_m (shr_1 mrs) = shr_m mrs / 2.
Proof.
  destruct mrs as [m r s]; simpl. intros Hm.
  destruct m as [|[p|p|]|p]; try lia; cbn [shr_1 shr_m].
  - reflexivity.
  - apply Z.div_unique with 1; lia.
  - apply Z.div_unique with 0; lia.
  - reflexivity.
Qed.

Lemma iter_pos_shr_1_m (p : positive) : forall mrs,
  0 <= shr_m mrs -> shr_m (iter_pos shr_1 p mrs) = shr_m mrs / 2 ^ Z.pos p.
Proof.
  assert (Hnn : forall x k, 0 <= x -> 0 < k -> 0 <= x / k)
    by (intros; apply Z.div_pos; lia).
  assert (Hpw : forall q : positive, 0 < 2 ^ Z.pos q)
    by (intros; apply Z.pow_pos_nonneg; lia).
  induction p as [p IH | p IH |]; intros mrs Hm; simpl iter_pos.
  - assert (H1 : 0 <= shr_m (shr_1 mrs)) by (rewrite shr_1_m by lia; apply Hnn; lia).
    assert (H2 : 0 <= shr_m (iter_pos shr_1 p (shr_1 mrs)))
      by (rewrite IH by lia; apply Hnn; [lia | apply Hpw]).
    rewrite IH, IH, shr_1_m by lia.
    pose proof (Hpw p).
    rewrite !Z.div_div by lia.
    f_equal. rewrite pow2_xI. lia.
  - assert (H2 : 0 <= shr_m (iter_pos shr_1 p mrs))
      by (rewrite IH by lia; apply Hnn; [lia | apply Hpw]).
    rewrite IH, IH by lia.
    pose proof (Hpw p).
    rewrite !Z.div_div by lia.
    f_equal. rewrite pow2_xO. lia.
  - rewrite shr_1_m by lia. reflexivity.
Qed.

Lemma shr_record_of_loc_m (m : Z) (l : location) :
  shr_m (shr_record_of_loc m l) = m.
Proof. destruct l as [|[ | | ]]; reflexivity. Qed.

(** A shift by [n >= 0] divides by [2^n] and raises the exponent by [n]. *)
Lemma shr_m_e (mrs : shr_record) (e n : Z) :
  0 <= shr_m mrs -> 0 <= n ->
  shr_m (fst (shr mrs e n)) = shr_m mrs / 2 ^ n /\ snd (shr mrs e n) = e + n.
Proof.
  intros Hm Hn. destruct n as [|p|p]; simpl; try lia.
  - rewrite Z.div_1_r. lia.
  - split; [apply iter_pos_shr_1_m; assumption | reflexivity].
Qed.

Lemma shr_m_nonneg (mrs : shr_record) (e n : Z) :
  0 <= shr_m mrs -> 0 <= shr_m (fst (shr mrs e n)).
Proof.
  intros Hm. destruct n as [|p|p]; simpl; try assumption.
  rewrite iter_pos_shr_1_m by assumption.
  apply Z.div_pos; [assumption | apply Z.pow_pos_nonneg; lia].
Qed.

Lemma shr_fexp_nonneg (m e : Z) (l : location) :
  0 <= m -> 0 <= shr_m (fst (shr_fexp prec emax m e l)).
Proof.
  intros Hm. unfold shr_fexp. apply shr_m_nonneg.
  rewrite shr_record_of_loc_m. assumption.
Qed.

(** Rounding to nearest keeps the truncated significand or adds one. *)
Lemma round_nearest_even_bounds (m : Z) (l : location) :
  m <= round_nearest_even m l <= m + 1.
Proof.
  destruct l as [|[ | | ]]; simpl; try lia.
  destruct (Z.even m); lia.
Qed.

End Shift.


(* ================================================================== *)
(** ** Rounding a significand to binary32 *)

(** Whatever is rounded, the sign is kept and no NaN appears. *)
Lemma binary_round_aux_sign (s : bool) (m e : Z) (l : location) :
  0 <= m -> sign_is s (binary_round_aux prec emax s m e l) = true.
Proof.
  intros Hm. unfold binary_round_aux.
  pose proof (shr_fexp_nonneg m e l Hm) as H1.
  destruct (shr_fexp prec emax m e l) as [mrs1 e1]. simpl fst in H1.
  pose proof (round_nearest_even_bounds (shr_m mrs1) (loc_of_shr_record mrs1)) as Hr.
  set (m2 := round_nearest_even (shr_m mrs1) (loc_of_shr_record mrs1)) in *.
  assert (H2 : 0 <= m2) by lia.
  pose proof (shr_fexp_nonneg m2 e1 loc_Exact H2) as H3.
  destruct (shr_fexp prec emax m2 e1 loc_Exact) as [mrs2 e2]. simpl fst in H3.
  destruct (shr_m mrs2) as [|p|p]; try lia.
  - simpl. apply eqb_reflx.
  - destruct (e2 <=? emax - prec); simpl; apply eqb_reflx.
Qed.

Section NormalRange.

(** A significand of at least 24 bits, above the subnormal exponents. *)
Variables (m e : Z).
Hypothesis Hm : 2 ^ 23 <= m.
Hypothesis He : -149 <= e.

(** The excess of bits that rounding has to drop. *)
Let k : Z := Zdigits2 m - 24.

Lemma excess_nonneg : 0 <= k.
Proof.
  pose proof (Zdigits2_ge m 23 ltac:(lia) Hm). subst k. lia.
Qed.

Lemma shr_fexp_normal (l : location) :
  shr_m (fst (shr_fexp prec emax m e l)) = m / 2 ^ k
  /\ snd (shr_fexp prec emax m e l) = e + k.
Proof.
  pose proof excess_nonneg as Hk. subst k. unfold shr_fexp.
  replace (fexp prec emax (Zdigits2 m + e) - e) with (Zdigits2 m - 24)
    by (unfold fexp, emin, prec, emax; lia).
  assert (H0 : 0 <= shr_m (shr_record_of_loc m l))
    by (rewrite shr_record_of_loc_m; lia).
  destruct (shr_m_e (shr_record_of_loc m l) e _ H0 Hk) as [A B].
  rewrite shr_record_of_loc_m in A. auto.
Qed.

(** Dropping the excess leaves exactly 24 bits. *)
Lemma div_pow2_normal : 2 ^ 23 <= m / 2 ^ k < 2 ^ 24.
Proof.
  pose proof excess_nonneg as Hk.
  pose proof (Zdigits2_bounds m ltac:(lia)) as [Dlo Dhi].
  assert (Hp : 0 < 2 ^ k) by (apply Z.pow_pos_nonneg; lia).
  replace (Zdigits2 m - 1) with (23 + k) in Dlo by (subst k; lia).
  replace (Zdigits2 m) with (24 + k) in Dhi by (subst k; lia).
  rewrite Z.pow_add_r in Dlo, Dhi by lia.
  split.
  - apply Z.div_le_lower_bound; lia.
  - apply Z.div_lt_upper_bound; lia.
Qed.

End NormalRange.

(** The result of rounding in the normal range: a 24-bit significand that is
    the truncated one or its successor, at the exponent raised by the excess;
    or, when the successor carries into a 25th bit, [2^23] one exponent up.
    Beyond the largest exponent the result is an infinity. *)
Lemma binary_round_aux_normal (s : bool) (m e : Z) (l : location) :
  2 ^ 23 <= m -> -149 <= e ->
  exists m' e',
    binary_round_aux prec emax s m e l
    = (if e' <=? 104 then S754_finite s m' e' else S754_infinity s)
    /\ 2 ^ 23 <= Z.pos m' < 2 ^ 24
    /\ ((e' = e + (Zdigits2 m - 24)
         /\ m / 2 ^ (Zdigits2 m - 24) <= Z.pos m' <= m / 2 ^ (Zdigits2 m - 24) + 1)
        \/ (e' = e + (Zdigits2 m - 24) + 1 /\ Z.pos m' = 2 ^ 23)).
Proof.
  intros Hm He. unfold binary_round_aux.
  destruct (shr_fexp_normal m e Hm He l) as (A1 & B1).
  pose proof (excess_nonneg m Hm) as K1.
  pose proof (div_pow2_normal m Hm) as N1.
  destruct (shr_fexp prec emax m e l) as [mrs1 e1]. simpl fst in A1. simpl snd in B1.
  pose proof (round_nearest_even_bounds (shr_m mrs1) (loc_of_shr_record mrs1)) as Hr.
  set (m2 := round_nearest_even (shr_m mrs1) (loc_of_shr_record mrs1)) in *.
  rewrite A1 in Hr.
  assert (Hm2 : 2 ^ 23 <= m2) by lia.
  assert (He1 : -149 <= e1) by lia.
  destruct (shr_fexp_normal m2 e1 Hm2 He1 loc_Exact) as (A2 & B2).
  destruct (shr_fexp prec emax m2 e1 loc_Exact) as [mrs2 e2].
  simpl fst in A2. simpl snd in B2.
  change (emax - prec) with 104.
  assert (C : m2 < 2 ^ 24 \/ m2 = 2 ^ 24) by lia.
  destruct C as [C | C].
  - assert (D : Zdigits2 m2 = 24) by (apply Zdigits2_unique; simpl; lia).
    rewrite D in A2, B2. simpl in A2. rewrite Z.div_1_r in A2.
    rewrite A2. destruct m2 as [|p|p]; try lia.
    exists p, e2. split; [reflexivity|]. split; [lia|]. left. lia.
  - rewrite C in A2, B2. simpl in A2, B2. rewrite A2.
    exists 8388608%positive, e2. split; [reflexivity|]. split; [simpl; lia|]. right.
    split; [lia | reflexivity].
Qed.

(* ================================================================== *)
(** ** The conversion [(float)adc] outside the ADC range *)

(** Alignment of an integer significand before rounding. *)
Lemma shl_align_of_int (p : positive) :
  4096 <= Z.pos p ->
  let '(mz, ez) := shl_align p 0 (fexp prec emax (Z.pos (digits2_pos p) + 0)) in
  2 ^ 23 <= Z.pos mz /\ -11 <= ez.
Proof.
  intros Hp.
  pose proof (digits2_pos_bounds p) as [Dlo Dhi].
  assert (Hd : 12 < Z.pos (digits2_pos p)).
  { apply (Z.pow_lt_mono_r_iff 2); [lia | lia |]. change (2 ^ 12) with 4096. lia. }
  set (d := Z.pos (digits2_pos p)) in *.
  replace (fexp prec emax (d + 0)) with (d - 24)
    by (unfold fexp, emin, prec, emax; lia).
  unfold shl_align.
  destruct (d - 24 - 0) as [|j|j] eqn:E.
  - split; [|lia]. replace (d - 1) with 23 in Dlo by lia. lia.
  - split; [|lia].
    apply Z.le_trans with (2 ^ (d - 1)); [|assumption].
    apply Z.pow_le_mono_r; lia.
  - split; [|lia]. rewrite iter_xO_pow2.
    replace 23 with ((d - 1) + Z.pos j) by lia.
    rewrite Z.pow_add_r by lia.
    apply Z.mul_le_mono_nonneg_r; [|assumption].
    apply Z.pow_nonneg; lia.
Qed.

(** An integer of at least 4096 becomes a normal float of at least [2^12], or
    [+infinity] when it is beyond the binary32 range. *)
Lemma of_int_large (n : Z) :
  4096 <= n ->
  exists m e,
    of_int n = (if e <=? 104 then S754_finite false m e else S754_infinity false)
    /\ 2 ^ 23 <= Z.pos m < 2 ^ 24 /\ -11 <= e.
Proof.
  intros Hn. destruct n as [|p|p]; try lia.
  unfold of_int, binary_normalize, binary_round.
  pose proof (shl_align_of_int p Hn) as Ha.
  destruct (shl_align p 0 (fexp prec emax (Z.pos (digits2_pos p) + 0))) as [mz ez].
  destruct Ha as [Hmz Hez].
  destruct (binary_round_aux_normal false (Z.pos mz) ez loc_Exact Hmz ltac:(lia))
    as (m' & e' & Heq & Hb & Hc).
  pose proof (Zdigits2_ge (Z.pos mz) 23 ltac:(lia) Hmz) as Hk.
  exists m', e'. split; [exact Heq|]. split; [exact Hb|]. lia.
Qed.

(** A negative integer becomes a negative float, a negative zero or
    [-infinity]; never a NaN. *)
Lemma of_int_negative (n : Z) : n < 0 -> sign_is true (of_int n) = true.
Proof.
  intros Hn. destruct n as [|p|p]; try lia.
  unfold of_int, binary_normalize, binary_round.
  destruct (shl_align p 0 (fexp prec emax (Z.pos (digits2_pos p) + 0))) as [mz ez].
  apply binary_round_aux_sign. lia.
Qed.

(* ================================================================== *)
(** ** Line 18 outside the ADC range *)

Lemma mq7_unfold (adc : Z) : mq7_map_adc_to_gas adc = mq7_scale (mq7_ratio adc).
Proof. reflexivity. Qed.

Lemma mq7_ratio_unfold (adc : Z) :
  mq7_ratio adc = ((of_int adc - MQ7_ADC_MIN_F) / mq7_divisor)%f32.
Proof. reflexivity. Qed.

(** [MQ7_ADC_MAX_F - MQ7_ADC_MIN_F] is [4095.0f], that is [0xFFF000 * 2^-12]. *)
Lemma mq7_divisor_value : mq7_divisor = S754_finite false 16773120 (-12).
Proof. reflexivity. Qed.

Lemma div_eucl_nonneg (a b : Z) : 0 <= a -> 0 < b -> 0 <= fst (Z.div_eucl a b).
Proof.
  intros Ha Hb. pose proof (Z_div_mod a b ltac:(lia)) as H.
  destruct (Z.div_eucl a b) as [q r]. simpl. nia.
Qed.

(** Case analysis on a float and on its sign, closing the impossible cases. *)
Ltac float_cases x :=
  let s := fresh "s" in
  destruct x as [s | s | | s ? ?]; try discriminate;
  destruct s; try discriminate.

(** A float of at least 4096 divided by 4095 is above [1.0f]: the quotient
    significand exceeds [2^23] at exponent [-23] or sits at a higher one. *)
Lemma div_large (m : positive) (e : Z) :
  2 ^ 23 <= Z.pos m < 2 ^ 24 -> -11 <= e ->
  (one <? S754_finite false m e / mq7_divisor)%f32 = true.
Proof.
  intros Hm He. rewrite mq7_divisor_value.
  unfold div, SFdiv, SFdiv_core_binary.
  rewrite (Zdigits2_unique (Z.pos m) 24) by (simpl; lia).
  change (Zdigits2 16773120) with 24.
  replace (Z.min (fexp prec emax (24 + e - (24 + -12))) (e - -12)) with (e - 12)
    by (unfold fexp, emin, prec, emax; lia).
  replace (e - -12 - (e - 12)) with 24 by lia.
  cbv beta iota zeta.
  rewrite Z.shiftl_mul_pow2 by lia.
  pose proof (Z_div_mod (Z.pos m * 2 ^ 24) 16773120 ltac:(lia)) as Hdiv.
  destruct (Z.div_eucl (Z.pos m * 2 ^ 24) 16773120) as [q r].
  destruct Hdiv as [Hq Hr].
  change (2 ^ 24) with 16777216 in *. change (2 ^ 23) with 8388608 in *.
  assert (Hq' : 8388608 < q) by lia.
  destruct (binary_round_aux_normal (xorb false false) q (e - 12)
              (new_location 16773120 r) ltac:(simpl; lia) ltac:(lia))
    as (m' & e' & Heq & Hb & Hc).
  pose proof (Zdigits2_ge q 23 ltac:(lia) ltac:(simpl; lia)) as Hk.
  rewrite Heq. simpl xorb.
  destruct (e' <=? 104); [|reflexivity].
  assert (Hlex : -23 < e' \/ (e' = -23 /\ 8388608 < Z.pos m')).
  { destruct Hc as [[He' [Hlo _]] | [He' _]]; [|lia].
    assert (Hk0 : Zdigits2 q - 24 = 0 \/ 0 < Zdigits2 q - 24) by lia.
    destruct Hk0 as [Hk0 | Hk0]; [|lia].
    rewrite Hk0 in *. simpl in Hlo. rewrite Z.div_1_r in Hlo. lia. }
  unfold ltb, SFltb, SFcompare, one.
  destruct (Z.compare_spec (-23) e') as [E | E | E]; [ | reflexivity | lia].
  change (Pos.compare_cont Eq 8388608 m') with (Pos.compare 8388608 m').
  replace (8388608 ?= m')%positive with Lt; [reflexivity|].
  symmetry. apply Pos.compare_lt_iff. lia.
Qed.

Lemma ratio_large (x : float32) (m : positive) (e : Z) :
  x = (if e <=? 104 then S754_finite false m e else S754_infinity false) ->
  2 ^ 23 <= Z.pos m < 2 ^ 24 -> -11 <= e ->
  (one <? (x - MQ7_ADC_MIN_F) / mq7_divisor)%f32 = true.
Proof.
  intros -> Hm He. destruct (e <=? 104).
  - change (S754_finite false m e - MQ7_ADC_MIN_F)%f32 with (S754_finite false m e).
    apply div_large; assumption.
  - reflexivity.
Qed.

(** A negative dividend keeps its sign through the subtraction of [0.0f] and
    the division by 4095. *)
Lemma ratio_negative (x : float32) :
  sign_is true x = true ->
  sign_is true ((x - MQ7_ADC_MIN_F) / mq7_divisor)%f32 = true.
Proof.
  intros Hx. rewrite mq7_divisor_value.
  float_cases x; try reflexivity.
  change (S754_finite true m e - MQ7_ADC_MIN_F)%f32 with (S754_finite true m e).
  unfold div, SFdiv, SFdiv_core_binary.
  set (e' := Z.min _ _). set (s := e - -12 - e').
  set (m' := match s with
             | Z.pos _ => Z.shiftl (Z.pos m) s
             | 0 => Z.pos m
             | Z.neg _ => 0
             end).
  assert (Hm' : 0 <= m').
  { subst m'. destruct s; try lia. apply Z.shiftl_nonneg. lia. }
  pose proof (div_eucl_nonneg m' 16773120 Hm' ltac:(lia)) as Hq.
  destruct (Z.div_eucl m' 16773120) as [q r]. simpl fst in Hq.
  apply binary_round_aux_sign. exact Hq.
Qed.

(* ================================================================== *)
(** ** Lines 19-22 on a ratio outside [[0, 1]] *)

(** Below zero (or at a negative zero) the result is [GAS_UNIT_MIN]. *)
Lemma mq7_scale_negative (t : float32) :
  sign_is true t = true -> mq7_scale t = GAS_UNIT_MIN.
Proof. float_cases t; intros _; reflexivity. Qed.

(** Above one the result is [GAS_UNIT_MAX]. *)
Lemma mq7_scale_large (t : float32) :
  (one <? t)%f32 = true -> mq7_scale t = GAS_UNIT_MAX.
Proof.
  intros Ht.
  assert (H0 : (t <? zero)%f32 = false) by (float_cases t; reflexivity).
  unfold mq7_scale. rewrite H0, Ht. reflexivity.
Qed.

Lemma mq7_below (adc : Z) : adc < 0 -> mq7_map_adc_to_gas adc = GAS_UNIT_MIN.
Proof.
  intros H. rewrite mq7_unfold, mq7_ratio_unfold.
  apply mq7_scale_negative, ratio_negative, of_int_negative, H.
Qed.

Lemma mq7_above (adc : Z) : 4095 < adc -> mq7_map_adc_to_gas adc = GAS_UNIT_MAX.
Proof.
  intros H. rewrite mq7_unfold, mq7_ratio_unfold.
  destruct (of_int_large adc ltac:(lia)) as (m & e & Hv & Hm & He).
  apply mq7_scale_large. apply (ratio_large _ m e Hv Hm He).
Qed.

Lemma mq7_ratio_below (adc : Z) : adc < 0 -> sign_is true (mq7_ratio adc) = true.
Proof.
  intros H. rewrite mq7_ratio_unfold. apply ratio_negative, of_int_negative, H.
Qed.

Lemma mq7_ratio_above (adc : Z) : 4095 < adc -> (one <? mq7_ratio adc)%f32 = true.
Proof.
  intros H. rewrite mq7_ratio_unfold.
  destruct (of_int_large adc ltac:(lia)) as (m & e & Hv & Hm & He).
  apply (ratio_large _ m e Hv Hm He).
Qed.

(* ================================================================== *)
(** ** Comparisons *)

Lemma identical_eq (x y : float32) : identical x y = true -> x = y.
Proof.
  destruct x as [a | a | | a m e], y as [b | b | | b n f]; simpl; try discriminate.
  - intros H. apply eqb_prop in H. congruence.
  - intros H. apply eqb_prop in H. congruence.
  - reflexivity.
  - intros H. apply andb_prop in H. destruct H as [H He].
    apply andb_prop in H. destruct H as [Hs Hm].
    apply eqb_prop in Hs. apply Pos.eqb_eq in Hm. apply Z.eqb_eq in He. congruence.
Qed.

(** Positive finite floats are ordered by exponent, then by significand. *)
Lemma ltb_pos_finite (m1 m2 : positive) (e1 e2 : Z) :
  (S754_finite false m1 e1 <? S754_finite false m2 e2)%f32 = true
  <-> e1 < e2 \/ (e1 = e2 /\ (m1 < m2)%positive).
Proof.
  unfold ltb, SFltb, SFcompare.
  change (Pos.compare_cont Eq m1 m2) with (Pos.compare m1 m2).
  destruct (Z.compare_spec e1 e2) as [E | E | E].
  - destruct (Pos.compare_spec m1 m2) as [M | M | M]; split; intros H;
      try discriminate; try reflexivity; try (right; split; assumption);
      destruct H as [H | [_ H]]; lia.
  - split; [intros _; left; assumption | reflexivity].
  - split; [discriminate | intros [H | [H _]]; lia].
Qed.

Lemma ltb_trans_pos (x y z : float32) :
  pos_finite x = true -> pos_finite y = true -> pos_finite z = true ->
  (x <? y)%f32 = true -> (y <? z)%f32 = true -> (x <? z)%f32 = true.
Proof.
  destruct x as [ | | | [] m1 e1]; try discriminate.
  destruct y as [ | | | [] m2 e2]; try discriminate.
  destruct z as [ | | | [] m3 e3]; try discriminate.
  intros _ _ _. rewrite !ltb_pos_finite. lia.
Qed.

Lemma ltb_leb (x y : float32) : (x <? y)%f32 = true -> (x <=? y)%f32 = true.
Proof.
  unfold ltb, leb, SFltb, SFleb. destruct (SFcompare x y) as [[ | | ]|]; congruence.
Qed.

(** [x == x] holds for every positive finite float. *)
Lemma eqb_refl_pos (x : float32) : pos_finite x = true -> (x =? x)%f32 = true.
Proof.
  destruct x as [ | | | [] m e]; try discriminate. intros _.
  unfold eqb, SFeqb, SFcompare. rewrite Z.compare_refl.
  change (Pos.compare_cont Eq m m) with (Pos.compare m m).
  rewrite Pos.compare_refl. reflexivity.
Qed.

Lemma pos_finite_is_finite (x : float32) : pos_finite x = true -> is_finite x = true.
Proof. destruct x as [ | | | [] m e]; try discriminate. reflexivity. Qed.

Lemma sign_is_not_nan (s : bool) (x : float32) : sign_is s x = true -> is_nan x = false.
Proof. destruct x; try discriminate; reflexivity. Qed.

Lemma ltb_not_nan (a x : float32) : (a <? x)%f32 = true -> is_nan x = false.
Proof. destruct x; try reflexivity. destruct a; discriminate. Qed.

Lemma leb_not_nan (a x : float32) : (a <=? x)%f32 = true -> is_nan x = false.
Proof. destruct x; try reflexivity. destruct a; discriminate. Qed.

(* ================================================================== *)
(** ** The 4096 samples of the ADC range *)

Lemma all_below_spec (n : nat) (P : Z -> bool) :
  all_below n P = true -> forall z, 0 <= z < Z.of_nat n -> P z = true.
Proof.
  induction n as [|j IH]; intros H z Hz; [lia|].
  simpl in H. apply andb_prop in H. destruct H as [Hj Hr].
  destruct (Z.eq_dec z (Z.of_nat j)) as [-> | Hne]; [assumption|].
  apply IH; [assumption | lia].
Qed.

(** The function is run on every sample. *)
Lemma in_range_check_all : all_below 4096 in_range_check = true.
Proof. vm_compute. reflexivity. Qed.

Lemma in_range_check_holds (z : Z) : 0 <= z <= 4095 -> in_range_check z = true.
Proof.
  intros Hz. apply (all_below_spec 4096 _ in_range_check_all). simpl. lia.
Qed.

Ltac split_check H :=
  repeat match type of H with
         | (_ && _)%bool = true =>
             let H' := fresh "K" in apply andb_prop in H; destruct H as [H H']
         end.

Lemma in_range_facts (z : Z) :
  0 <= z <= 4095 ->
  in_unit_range (mq7_map_adc_to_gas z) = true
  /\ in_unit_rangeQ (mq7_map_adc_to_gas z) = true
  /\ pos_finite (mq7_map_adc_to_gas z) = true
  /\ (zero <=? mq7_ratio z)%f32 = true
  /\ (mq7_ratio z <=? one)%f32 = true
  /\ (mq7_ratio z <? zero)%f32 = false
  /\ (one <? mq7_ratio z)%f32 = false
  /\ mq7_map_adc_to_gas z = mq7_affine z
  /\ (z < 4095 -> (mq7_map_adc_to_gas z <? mq7_map_adc_to_gas (z + 1))%f32 = true)
  /\ within (mq7_map_adc_to_gas z) (Spec.exact_map_adc_to_gas z) (1 # 16384) = true.
Proof.
  intros Hz. pose proof (in_range_check_holds z Hz) as H.
  unfold in_range_check in H. cbv zeta in H. split_check H.
  repeat split; try assumption.
  - apply negb_true_iff. assumption.
  - apply negb_true_iff. assumption.
  - apply identical_eq. assumption.
  - intros Hlt. apply orb_prop in K0. destruct K0 as [K0 | K0]; [|assumption].
    apply Z.eqb_eq in K0. unfold ADC_FULL_SCALE in K0. lia.
Qed.

Lemma mq7_step (z : Z) :
  0 <= z < 4095 -> (mq7_map_adc_to_gas z <? mq7_map_adc_to_gas (z + 1))%f32 = true.
Proof. intros Hz. apply (in_range_facts z); lia. Qed.

Lemma mq7_pos_finite_in_range (z : Z) :
  0 <= z <= 4095 -> pos_finite (mq7_map_adc_to_gas z) = true.
Proof. intros Hz. apply (in_range_facts z); lia. Qed.

(** Strict growth from one sample to any later one, by chaining the steps. *)
Lemma mq7_increasing_in_range (a b : Z) :
  0 <= a -> a < b -> b <= 4095 ->
  (mq7_map_adc_to_gas a <? mq7_map_adc_to_gas b)%f32 = true.
Proof.
  intros Ha Hab Hb.
  replace b with (a + 1 + Z.of_nat (Z.to_nat (b - a - 1))) in * by lia.
  induction (Z.to_nat (b - a - 1)) as [|n IH].
  - rewrite Z.add_0_r. apply mq7_step. lia.
  - apply ltb_trans_pos with (y := mq7_map_adc_to_gas (a + 1 + Z.of_nat n)).
    + apply mq7_pos_finite_in_range; lia.
    + apply mq7_pos_finite_in_range; lia.
    + apply mq7_pos_finite_in_range; lia.
    + apply IH; lia.
    + replace (a + 1 + Z.of_nat (S n)) with (a + 1 + Z.of_nat n + 1) by lia.
      apply mq7_step. lia.
Qed.

(* ================================================================== *)
(** ** Every integer: below the range, above it, or one of the samples *)

Ltac adc_zones adc :=
  let Hlo := fresh "Hlo" in
  let Hhi := fresh "Hhi" in
  destruct (Z_lt_le_dec adc 0) as [Hlo | Hlo];
  [ | destruct (Z_lt_le_dec 4095 adc) as [Hhi | Hhi] ].

Lemma mq7_in_unit_range_all (adc : Z) :
  in_unit_range (mq7_map_adc_to_gas adc) = true
  /\ in_unit_rangeQ (mq7_map_adc_to_gas adc) = true.
Proof.
  adc_zones adc.
  - rewrite mq7_below by assumption. split; reflexivity.
  - rewrite mq7_above by assumption. split; reflexivity.
  - pose proof (in_range_facts adc ltac:(lia)) as H. tauto.
Qed.

Lemma mq7_pos_finite_all (adc : Z) : pos_finite (mq7_map_adc_to_gas adc) = true.
Proof.
  adc_zones adc.
  - rewrite mq7_below by assumption. reflexivity.
  - rewrite mq7_above by assumption. reflexivity.
  - apply mq7_pos_finite_in_range. lia.
Qed.

Lemma mq7_ratio_not_nan (adc : Z) : is_nan (mq7_ratio adc) = false.
Proof.
  adc_zones adc.
  - apply sign_is_not_nan with (s := true), mq7_ratio_below. assumption.
  - apply ltb_not_nan with (a := one), mq7_ratio_above. assumption.
  - apply leb_not_nan with (a := zero). apply (in_range_facts adc). lia.
Qed.

(** The clamping statements of lines 19-20 are [clamp(t, 0.0f, 1.0f)]. *)
Lemma mq7_scale_clamp (t : float32) :
  mq7_scale t = (GAS_UNIT_MIN + clamp t zero one * (GAS_UNIT_MAX - GAS_UNIT_MIN))%f32.
Proof.
  unfold mq7_scale, clamp. destruct (t <? zero)%f32; reflexivity.
Qed.

(* ================================================================== *)
(** ** Distance to the exact interpolation *)

Lemma exact_ratio (adc : Z) : ((inject_Z adc - 0) / (4095 - 0) == adc # 4095)%Q.
Proof. unfold Qeq, Qdiv, Qminus, Qplus, Qmult, Qinv, inject_Z; simpl. lia. Qed.

Lemma exact_below (adc : Z) : adc < 0 -> (Spec.exact_map_adc_to_gas adc == 150)%Q.
Proof.
  intros H. unfold Spec.exact_map_adc_to_gas, Spec.clampQ. cbv zeta.
  destruct (Qlt_le_dec _ 0) as [_ | Hge]; [ring|].
  rewrite exact_ratio in Hge. unfold Qle in Hge; simpl in Hge. lia.
Qed.

Lemma exact_above (adc : Z) : 4095 < adc -> (Spec.exact_map_adc_to_gas adc == 700)%Q.
Proof.
  intros H. unfold Spec.exact_map_adc_to_gas, Spec.clampQ. cbv zeta.
  destruct (Qlt_le_dec _ 0) as [Hlt | _].
  - rewrite exact_ratio in Hlt. unfold Qlt in Hlt; simpl in Hlt. lia.
  - destruct (Qlt_le_dec 1 _) as [_ | Hle]; [ring|].
    rewrite exact_ratio in Hle. unfold Qle in Hle; simpl in Hle. lia.
Qed.

Lemma within_Qeq (x : float32) (c c' eps : Q) :
  (c == c')%Q -> within x c' eps = true -> within x c eps = true.
Proof.
  unfold within. intros Hc. destruct (to_Q x) as [q|]; [|discriminate].
  rewrite !Qle_bool_iff. intros H. rewrite Hc. exact H.
Qed.

(** Against the contract read over the rationals, the computed value is off
    by rounding only: at most [2^-14], one unit in the last place of the
    largest results. *)
Lemma mq7_close_to_exact (adc : Z) :
  within (mq7_map_adc_to_gas adc) (Spec.exact_map_adc_to_gas adc) (1 # 16384) = true.
Proof.
  adc_zones adc.
  - rewrite mq7_below by assumption.
    apply (within_Qeq _ _ 150 _ (exact_below adc Hlo)). reflexivity.
  - rewrite mq7_above by assumption.
    apply (within_Qeq _ _ 700 _ (exact_above adc Hhi)). reflexivity.
  - apply (in_range_facts adc); lia.
Qed.

(** Rounding is visible: at sample 1 the computed value is not the exact one. *)
Lemma mq7_not_exact_at_1 :
  within (mq7_map_adc_to_gas 1) (Spec.exact_map_adc_to_gas 1) 0 = false.
Proof. vm_compute. reflexivity. Qed.

(** C6, as stated, fails.  Samples 2047 and 2048 do not give [425.0] within
    floating-point tolerance: each misses [425.0] by more than [2^-4], that
    is by more than 2048 units in the last place of a binary32 number near
    425 (one unit is [2^-15]). *)
Lemma mq7_midpoint_gap :
  within (mq7_map_adc_to_gas 2047) 425 (1 # 16) = false
  /\ within (mq7_map_adc_to_gas 2048) 425 (1 # 16) = false.
Proof. split; vm_compute; reflexivity. Qed.

(* ================================================================== *)
(** ** The properties of the specification *)

(** C1.  For every integer [adc], however far outside [[0, 4095]], the result
    lies in [[GAS_UNIT_MIN, GAS_UNIT_MAX]]: both C comparisons hold, and the
    result is a finite number between 150 and 700 inclusive. *)
Theorem mq7_output_in_unit_range (adc : Z) :
  (GAS_UNIT_MIN <=? mq7_map_adc_to_gas adc)%f32 = true
  /\ (mq7_map_adc_to_gas adc <=? GAS_UNIT_MAX)%f32 = true
  /\ exists q : Q,
       to_Q (mq7_map_adc_to_gas adc) = Some q /\ (150 <= q)%Q /\ (q <= 700)%Q.
Proof.
  destruct (mq7_in_unit_range_all adc) as [HF HQ].
  unfold in_unit_range in HF. apply andb_prop in HF. destruct HF as [H1 H2].
  split; [exact H1|]. split; [exact H2|].
  unfold in_unit_rangeQ in HQ.
  destruct (to_Q (mq7_map_adc_to_gas adc)) as [q|]; [|discriminate].
  apply andb_prop in HQ. destruct HQ as [Q1 Q2].
  exists q. split; [reflexivity|]. split; apply Qle_bool_iff; assumption.
Qed.

(** C2.  For every integer [adc] the function returns what the contract of
    the specification computes: the ratio [(adc - ADC_MIN) / (ADC_MAX -
    ADC_MIN)], clamped to [[0.0, 1.0]], scaled into [[UNIT_MIN, UNIT_MAX]],
    with the constants 0, 4095, 150 and 700.  The two agree exactly when the
    contract is evaluated in binary32, and the result is within [2^-14] of
    the contract evaluated over the rationals. *)
Theorem mq7_refines_contract (adc : Z) :
  mq7_map_adc_to_gas adc = Spec.map_adc_to_gas adc
  /\ within (mq7_map_adc_to_gas adc) (Spec.exact_map_adc_to_gas adc) (1 # 16384) = true.
Proof.
  split.
  - rewrite mq7_unfold, mq7_scale_clamp. reflexivity.
  - apply mq7_close_to_exact.
Qed.

(** C3.  The function is monotonically non-decreasing over all integers:
    [adc1 < adc2] gives [mq7_map_adc_to_gas adc1 <= mq7_map_adc_to_gas adc2]. *)
Theorem mq7_monotone (adc1 adc2 : Z) :
  adc1 < adc2 ->
  (mq7_map_adc_to_gas adc1 <=? mq7_map_adc_to_gas adc2)%f32 = true.
Proof.
  intros Hlt.
  destruct (mq7_in_unit_range_all adc1) as [R1 _].
  destruct (mq7_in_unit_range_all adc2) as [R2 _].
  unfold in_unit_range in R1, R2.
  apply andb_prop in R1. apply andb_prop in R2.
  destruct (Z_lt_le_dec adc1 0) as [Hlo | Hlo].
  - rewrite (mq7_below adc1 Hlo). tauto.
  - destruct (Z_lt_le_dec 4095 adc2) as [Hhi | Hhi].
    + rewrite (mq7_above adc2 Hhi). tauto.
    + apply ltb_leb, mq7_increasing_in_range; lia.
Qed.

Lemma mq7_monotone_witness :
  -5 < 5000 /\ (mq7_map_adc_to_gas (-5) <=? mq7_map_adc_to_gas 5000)%f32 = true.
Proof. split; [reflexivity | apply (mq7_monotone (-5) 5000); reflexivity]. Defined.

(** C4.  Inputs outside the domain saturate: every negative [adc] gives
    exactly [GAS_UNIT_MIN] and every [adc] above 4095 exactly
    [GAS_UNIT_MAX]; no input gives an infinity, a NaN or a value out of
    range.  In particular -100 gives [150.0f] and 10000 gives [700.0f]. *)
Theorem mq7_saturates :
  (forall adc, adc < 0 -> mq7_map_adc_to_gas adc = GAS_UNIT_MIN)
  /\ (forall adc, 4095 < adc -> mq7_map_adc_to_gas adc = GAS_UNIT_MAX)
  /\ (forall adc, is_finite (mq7_map_adc_to_gas adc) = true
                  /\ in_unit_range (mq7_map_adc_to_gas adc) = true)
  /\ (mq7_map_adc_to_gas (-100) =? of_int 150)%f32 = true
  /\ (mq7_map_adc_to_gas 10000 =? of_int 700)%f32 = true.
Proof.
  split; [exact mq7_below|]. split; [exact mq7_above|].
  split; [|split; reflexivity].
  intros adc. split.
  - apply pos_finite_is_finite, mq7_pos_finite_all.
  - apply mq7_in_unit_range_all.
Qed.

Lemma mq7_saturates_witness :
  mq7_map_adc_to_gas (-2147483648) = GAS_UNIT_MIN
  /\ mq7_map_adc_to_gas 2147483647 = GAS_UNIT_MAX.
Proof.
  split.
  - apply (proj1 mq7_saturates). reflexivity.
  - apply (proj1 (proj2 mq7_saturates)). reflexivity.
Defined.

(** C5.  The ends of the domain map exactly to the ends of the range:
    sample 0 gives [150.0f] and sample 4095 gives [700.0f]. *)
Theorem mq7_boundary_values :
  mq7_map_adc_to_gas 0 = GAS_UNIT_MIN
  /\ mq7_map_adc_to_gas 4095 = GAS_UNIT_MAX
  /\ (mq7_map_adc_to_gas 0 =? of_int 150)%f32 = true
  /\ (mq7_map_adc_to_gas 4095 =? of_int 700)%f32 = true
  /\ within (mq7_map_adc_to_gas 0) 150 0 = true
  /\ within (mq7_map_adc_to_gas 4095) 700 0 = true.
Proof. repeat split; vm_compute; reflexivity. Qed.

(** C6, amended.  The middle of the domain maps to the middle of the range
    only up to the quantisation of the input: sample 2047 gives a value
    exactly [2201/32768] (about 0.0672) below [425.0] and sample 2048 a value
    exactly [2201/32768] above it.  That is half an output step, [55/819],
    up to the rounding bound [2^-14]; it is not rounding noise. *)
Theorem mq7_midpoint :
  (exists p : Q,
     to_Q (mq7_map_adc_to_gas 2047) = Some p /\ (425 - p == 2201 # 32768)%Q)
  /\ (exists q : Q,
        to_Q (mq7_map_adc_to_gas 2048) = Some q /\ (q - 425 == 2201 # 32768)%Q)
  /\ (mq7_map_adc_to_gas 2047 <? of_int 425)%f32 = true
  /\ (of_int 425 <? mq7_map_adc_to_gas 2048)%f32 = true
  /\ within (mq7_map_adc_to_gas 2047) 425 ((55 # 819) + (1 # 16384)) = true
  /\ within (mq7_map_adc_to_gas 2048) 425 ((55 # 819) + (1 # 16384)) = true
  /\ within (mq7_map_adc_to_gas 2047) 425 (55 # 819) = false
  /\ within (mq7_map_adc_to_gas 2048) 425 (55 # 819) = false.
Proof.
  split; [|split].
  - exists (13924199 # 32768)%Q. split; reflexivity.
  - exists (13928601 # 32768)%Q. split; reflexivity.
  - repeat split; vm_compute; reflexivity.
Qed.

(** C7.  The function is total: [MQ7_ADC_MIN_F < MQ7_ADC_MAX_F], so the
    divisor of line 18 is the finite nonzero number 4095; for every integer
    [adc] the quotient is not a NaN and the result is a finite number. *)
Theorem mq7_total :
  (MQ7_ADC_MIN_F <? MQ7_ADC_MAX_F)%f32 = true
  /\ mq7_divisor = MQ7_ADC_MAX_F
  /\ is_finite mq7_divisor = true
  /\ (mq7_divisor =? zero)%f32 = false
  /\ forall adc,
       is_nan (mq7_ratio adc) = false
       /\ is_finite (mq7_map_adc_to_gas adc) = true.
Proof.
  repeat (split; [reflexivity|]).
  intros adc. split.
  - apply mq7_ratio_not_nan.
  - apply pos_finite_is_finite, mq7_pos_finite_all.
Qed.

(** C8.  The function is deterministic: two evaluations on the same input
    return the same float, bit for bit, and C's [==] finds them equal (the
    result is never a NaN). *)
Theorem mq7_deterministic (adc1 adc2 : Z) :
  adc1 = adc2 ->
  mq7_map_adc_to_gas adc1 = mq7_map_adc_to_gas adc2
  /\ (mq7_map_adc_to_gas adc1 =? mq7_map_adc_to_gas adc2)%f32 = true.
Proof.
  intros ->. split; [reflexivity|].
  apply eqb_refl_pos, mq7_pos_finite_all.
Qed.

Lemma mq7_deterministic_witness :
  mq7_map_adc_to_gas 2047 = mq7_map_adc_to_gas 2047
  /\ (mq7_map_adc_to_gas 2047 =? mq7_map_adc_to_gas 2047)%f32 = true.
Proof. apply (mq7_deterministic 2047 2047). reflexivity. Defined.

(** C9.  For [0 <= adc <= 4095] the ratio of line 18 already lies in
    [[0.0, 1.0]], neither clamping statement changes it, and the result is
    the unclamped interpolation
    [GAS_UNIT_MIN + (adc / 4095) * (GAS_UNIT_MAX - GAS_UNIT_MIN)]. *)
Theorem mq7_in_range_unclamped (adc : Z) :
  0 <= adc <= 4095 ->
  (zero <=? mq7_ratio adc)%f32 = true
  /\ (mq7_ratio adc <=? one)%f32 = true
  /\ (mq7_ratio adc <? zero)%f32 = false
  /\ (one <? mq7_ratio adc)%f32 = false
  /\ mq7_map_adc_to_gas adc = mq7_affine adc.
Proof.
  intros Hz. pose proof (in_range_facts adc Hz) as H. tauto.
Qed.

Lemma mq7_in_range_unclamped_witness :
  (zero <=? mq7_ratio 1234)%f32 = true
  /\ (mq7_ratio 1234 <=? one)%f32 = true
  /\ (mq7_ratio 1234 <? zero)%f32 = false
  /\ (one <? mq7_ratio 1234)%f32 = false
  /\ mq7_map_adc_to_gas 1234 = mq7_affine 1234.
Proof. apply (mq7_in_range_unclamped 1234). split; discriminate. Defined.

(** C10.  On the samples the function is strictly increasing:
    [0 <= adc1 < adc2 <= 4095] gives
    [mq7_map_adc_to_gas adc1 < mq7_map_adc_to_gas adc2]. *)
Theorem mq7_strictly_increasing_in_range (adc1 adc2 : Z) :
  0 <= adc1 -> adc1 < adc2 -> adc2 <= 4095 ->
  (mq7_map_adc_to_gas adc1 <? mq7_map_adc_to_gas adc2)%f32 = true.
Proof. apply mq7_increasing_in_range. Qed.

Lemma mq7_strictly_increasing_in_range_witness :
  (mq7_map_adc_to_gas 0 <? mq7_map_adc_to_gas 4095)%f32 = true.
Proof.
  apply (mq7_strictly_increasing_in_range 0 4095); [discriminate | reflexivity | discriminate].
Defined.

(* ================================================================== *)
(** ** Further properties of [mq7_map_adc_to_gas] *)

(** *** Order and equality of positive finite floats *)

Lemma eqb_pos_finite (m1 m2 : positive) (e1 e2 : Z) :
  (S754_finite false m1 e1 =? S754_finite false m2 e2)%f32 = true
  <-> e1 = e2 /\ m1 = m2.
Proof.
  unfold eqb, SFeqb, SFcompare.
  change (Pos.compare_cont Eq m1 m2) with (Pos.compare m1 m2).
  destruct (Z.compare_spec e1 e2) as [E | E | E].
  - destruct (Pos.compare_spec m1 m2) as [M | M | M]; split; intros H;
      try discriminate; try reflexivity; try (split; assumption);
      destruct H as [_ H]; lia.
  - split; [discriminate | intros [H _]; lia].
  - split; [discriminate | intros [H _]; lia].
Qed.

Lemma leb_pos_finite (m1 m2 : positive) (e1 e2 : Z) :
  (S754_finite false m1 e1 <=? S754_finite false m2 e2)%f32 = true
  <-> e1 < e2 \/ (e1 = e2 /\ (m1 <= m2)%positive).
Proof.
  unfold leb, SFleb, SFcompare.
  change (Pos.compare_cont Eq m1 m2) with (Pos.compare m1 m2).
  destruct (Z.compare_spec e1 e2) as [E | E | E].
  - destruct (Pos.compare_spec m1 m2) as [M | M | M]; split; intros H;
      try discriminate; try reflexivity; try (right; split; [assumption | lia]);
      destruct H as [H | [_ H]]; lia.
  - split; [intros _; left; assumption | reflexivity].
  - split; [discriminate | intros [H | [H _]]; lia].
Qed.

(** Of [x < y], [x == y] and [y < x] exactly one holds. *)
Lemma ltb_exclusive_pos (x y : float32) :
  pos_finite x = true -> pos_finite y = true -> (x <? y)%f32 = true ->
  (x =? y)%f32 = false /\ (y =? x)%f32 = false /\ (y <? x)%f32 = false
  /\ (y <=? x)%f32 = false.
Proof.
  destruct x as [ | | | [] m1 e1]; try discriminate.
  destruct y as [ | | | [] m2 e2]; try discriminate.
  intros _ _ H. apply ltb_pos_finite in H.
  repeat split; apply not_true_is_false; intros C.
  - apply eqb_pos_finite in C. lia.
  - apply eqb_pos_finite in C. lia.
  - apply ltb_pos_finite in C. lia.
  - apply leb_pos_finite in C. lia.
Qed.

Lemma ltb_irrefl_pos (x : float32) : pos_finite x = true -> (x <? x)%f32 = false.
Proof.
  destruct x as [ | | | [] m e]; try discriminate. intros _.
  apply not_true_is_false. intros C. apply ltb_pos_finite in C. lia.
Qed.

(** *** The function over all integers *)

Lemma mq7_nondecreasing_all (a b : Z) :
  a < b -> (mq7_map_adc_to_gas a <=? mq7_map_adc_to_gas b)%f32 = true.
Proof.
  intros Hlt.
  destruct (mq7_in_unit_range_all a) as [R1 _].
  destruct (mq7_in_unit_range_all b) as [R2 _].
  unfold in_unit_range in R1, R2.
  apply andb_prop in R1. apply andb_prop in R2.
  adc_zones a.
  - rewrite (mq7_below a) by assumption. tauto.
  - rewrite (mq7_above b) by lia. tauto.
  - adc_zones b.
    + lia.
    + rewrite (mq7_above b) by assumption. tauto.
    + apply ltb_leb, mq7_increasing_in_range; lia.
Qed.

Lemma mq7_at_zero : mq7_map_adc_to_gas 0 = GAS_UNIT_MIN.
Proof. reflexivity. Qed.

Lemma mq7_at_full_scale : mq7_map_adc_to_gas 4095 = GAS_UNIT_MAX.
Proof. vm_compute. reflexivity. Qed.

(** X1.  Saturation can be read off the result: the result compares equal
    to [GAS_UNIT_MIN] exactly when [adc <= 0] and equal to [GAS_UNIT_MAX]
    exactly when [adc >= 4095].  Rounding makes no sample from 1 to 4094 hit
    an end of the range, and full scale is not told apart from overrange. *)
Theorem mq7_saturation_detected (adc : Z) :
  (mq7_map_adc_to_gas adc =? GAS_UNIT_MIN)%f32 = (adc <=? 0)
  /\ (mq7_map_adc_to_gas adc =? GAS_UNIT_MAX)%f32 = (4095 <=? adc).
Proof.
  assert (Hmin : pos_finite GAS_UNIT_MIN = true) by reflexivity.
  assert (Hmax : pos_finite GAS_UNIT_MAX = true) by reflexivity.
  pose proof (mq7_pos_finite_all adc) as Hp.
  destruct (Z.leb_spec adc 0) as [L0 | L0]; destruct (Z.leb_spec 4095 adc) as [L1 | L1];
    try lia.
  - assert (E : mq7_map_adc_to_gas adc = GAS_UNIT_MIN).
    { destruct (Z.eq_dec adc 0) as [-> | N]; [apply mq7_at_zero | apply mq7_below; lia]. }
    rewrite E. split; reflexivity.
  - assert (E : mq7_map_adc_to_gas adc = GAS_UNIT_MAX).
    { destruct (Z.eq_dec adc 4095) as [-> | N];
        [apply mq7_at_full_scale | apply mq7_above; lia]. }
    rewrite E. split; reflexivity.
  - pose proof (mq7_increasing_in_range 0 adc ltac:(lia) ltac:(lia) ltac:(lia)) as Hlo.
    pose proof (mq7_increasing_in_range adc 4095 ltac:(lia) ltac:(lia) ltac:(lia)) as Hhi.
    rewrite mq7_at_zero in Hlo. rewrite mq7_at_full_scale in Hhi.
    split.
    + apply (ltb_exclusive_pos _ _ Hmin Hp Hlo).
    + apply (ltb_exclusive_pos _ _ Hp Hmax Hhi).
Qed.

(** X2.  A higher result means a higher input, for all integers: if
    [mq7_map_adc_to_gas adc1 < mq7_map_adc_to_gas adc2] then [adc1 < adc2]. *)
Theorem mq7_reflects_order (adc1 adc2 : Z) :
  (mq7_map_adc_to_gas adc1 <? mq7_map_adc_to_gas adc2)%f32 = true -> adc1 < adc2.
Proof.
  intros H.
  destruct (Z_lt_le_dec adc1 adc2) as [Hlt | Hge]; [assumption|].
  exfalso.
  pose proof (mq7_pos_finite_all adc1) as P1.
  pose proof (mq7_pos_finite_all adc2) as P2.
  destruct (Z.eq_dec adc1 adc2) as [E | N].
  - subst adc2. rewrite ltb_irrefl_pos in H by assumption. discriminate.
  - pose proof (mq7_nondecreasing_all adc2 adc1 ltac:(lia)) as Hle.
    destruct (ltb_exclusive_pos _ _ P1 P2 H) as (_ & _ & _ & C).
    congruence.
Qed.

Lemma mq7_reflects_order_witness : 100 < 200.
Proof. apply (mq7_reflects_order 100 200). vm_compute. reflexivity. Defined.

(** X3.  On the samples [0 .. 4095] the function is an order embedding:
    results compare with [<] and [==] exactly as the samples do, so no two
    samples share a result. *)
Theorem mq7_order_embedding (adc1 adc2 : Z) :
  0 <= adc1 <= 4095 -> 0 <= adc2 <= 4095 ->
  (mq7_map_adc_to_gas adc1 <? mq7_map_adc_to_gas adc2)%f32 = (adc1 <? adc2)
  /\ (mq7_map_adc_to_gas adc1 =? mq7_map_adc_to_gas adc2)%f32 = (adc1 =? adc2).
Proof.
  intros H1 H2.
  pose proof (mq7_pos_finite_all adc1) as P1.
  pose proof (mq7_pos_finite_all adc2) as P2.
  destruct (Z.ltb_spec adc1 adc2) as [L | L]; destruct (Z.eqb_spec adc1 adc2) as [E | E];
    try lia.
  - pose proof (mq7_increasing_in_range adc1 adc2 ltac:(lia) L ltac:(lia)) as H.
    destruct (ltb_exclusive_pos _ _ P1 P2 H) as (A & _). split; assumption.
  - subst adc2. split; [apply ltb_irrefl_pos | apply eqb_refl_pos]; assumption.
  - pose proof (mq7_increasing_in_range adc2 adc1 ltac:(lia) ltac:(lia) ltac:(lia)) as H.
    destruct (ltb_exclusive_pos _ _ P2 P1 H) as (_ & A & B & _). split; assumption.
Qed.

Lemma mq7_order_embedding_witness :
  (mq7_map_adc_to_gas 2047 <? mq7_map_adc_to_gas 2048)%f32 = (2047 <? 2048)
  /\ (mq7_map_adc_to_gas 2047 =? mq7_map_adc_to_gas 2048)%f32 = (2047 =? 2048).
Proof. apply (mq7_order_embedding 2047 2048); split; discriminate. Defined.

(** *** The size of one step *)

Lemma step_check_all : all_below 4095 step_check = true.
Proof. vm_compute. reflexivity. Qed.

(** X4.  The resolution is even: from each sample below full scale to the
    next, the result rises by at least [275/2048] and at most [1101/8192]
    (0.13428 and 0.13440, around the exact step [550/4095]). *)
Theorem mq7_step_size (adc : Z) :
  0 <= adc < 4095 ->
  exists p q : Q,
    to_Q (mq7_map_adc_to_gas adc) = Some p
    /\ to_Q (mq7_map_adc_to_gas (adc + 1)) = Some q
    /\ (275 # 2048 <= q - p)%Q /\ (q - p <= 1101 # 8192)%Q.
Proof.
  intros Hz.
  pose proof (all_below_spec 4095 _ step_check_all adc ltac:(simpl; lia)) as H.
  unfold step_check, step_within in H.
  destruct (to_Q (mq7_map_adc_to_gas adc)) as [p|]; [|discriminate].
  destruct (to_Q (mq7_map_adc_to_gas (adc + 1))) as [q|]; [|discriminate].
  apply andb_prop in H. destruct H as [A B].
  exists p, q. repeat split; try reflexivity; apply Qle_bool_iff; assumption.
Qed.

Lemma mq7_step_size_witness :
  exists p q : Q,
    to_Q (mq7_map_adc_to_gas 0) = Some p
    /\ to_Q (mq7_map_adc_to_gas (0 + 1)) = Some q
    /\ (275 # 2048 <= q - p)%Q /\ (q - p <= 1101 # 8192)%Q.
Proof. apply (mq7_step_size 0). split; [discriminate | reflexivity]. Defined.

(** X5.  Clamping in floating point agrees with clamping the integer first:
    for every integer the result is the result at the nearest sample of
    [0 .. 4095]. *)
Theorem mq7_clamps_input (adc : Z) :
  mq7_map_adc_to_gas adc = mq7_map_adc_to_gas (Z.max 0 (Z.min adc 4095)).
Proof.
  adc_zones adc.
  - replace (Z.max 0 (Z.min adc 4095)) with 0 by lia.
    rewrite mq7_at_zero. apply mq7_below. assumption.
  - replace (Z.max 0 (Z.min adc 4095)) with 4095 by lia.
    rewrite mq7_at_full_scale. apply mq7_above. assumption.
  - replace (Z.max 0 (Z.min adc 4095)) with adc by lia. reflexivity.
Qed.
